(** * audio_lid: language identification over speech segments

    A shallow embedding of [AudioLID.infer_language]
    (src/audio_lid/audio_lid.py) and the properties of its retry policy,
    score aggregation, normalisation and order of the result.

    Modelling choices.
    - Status codes and counters are Python [int]s: [Z].
    - Scores, thresholds and percentages are Python [float]s.  They are
      written here as rationals [Q], with the comparisons of the code.
      The sums and quotients of the code are rounded, which [Q] does not
      show: the properties below are about comparisons with the floor,
      counts, keys, calls and order, and none of them states the value of
      a sum or of a quotient.  NaN and infinities are outside this model.
    - [dict]s are insertion-ordered: a dict is the list of its items in
      insertion order, with unique keys.
    - The collaborators ([SpeechDetecting], [LanguageIdentify], [print],
      [exit], the debug file dump) are effects: [infer_language] is a
      program of a small free monad whose calls are answered by a handler,
      and every call is recorded in a trace. *)

From Stdlib Require Import ZArith QArith Bool List String Lia Lqa.
From Stdlib Require Import Sorting.Sorted Sorting.Permutation.
From Stdlib Require Import Setoid.
From Stdlib Require Import Ascii.
From Stdlib Require Decimal DecimalNat DecimalString.
Import ListNotations.

Local Open Scope Z_scope.

(** ** Numbers *)

(** Python's [x < y] on floats, as a boolean. *)
Definition Qlt_bool (x y : Q) : bool := negb (Qle_bool y x).

(** Python's two-argument [max]: the first argument unless the second is
    strictly greater. *)
Definition py_max (a b : Q) : Q := if Qlt_bool a b then b else a.

(** ** Data *)

(** A sample buffer: 16 kHz mono samples. *)
Definition Samples : Type := list Z.

(** The objects of [speech_list]; [infer_language] only reads [samples]. *)
Record SpeechObj : Type := { samples : Samples }.

(** One classifier guess [(language_str, score)]. *)
Definition Guess : Type := (string * Q)%type.

(** [predictions.items()]: segment key and its list of guesses, in the
    dict's iteration order. *)
Definition Predictions : Type := list (string * list Guess).

(** An insertion-ordered [dict] from language to number. *)
Definition Dict : Type := list (string * Q).

Fixpoint dict_get (d : Dict) (k : string) : option Q :=
  match d with
  | [] => None
  | (k', v) :: r => if String.eqb k' k then Some v else dict_get r k
  end.

(** [d[k] = v]: an existing key keeps its position, a new one goes last. *)
Fixpoint dict_set (d : Dict) (k : string) (v : Q) : Dict :=
  match d with
  | [] => [(k, v)]
  | (k', v') :: r =>
      if String.eqb k' k then (k', v) :: r else (k', v') :: dict_set r k v
  end.

Definition dict_keys (d : Dict) : list string := map fst d.

(** The value of a key, [0] when absent: what [language_total_score]
    holds before the addition. *)
Definition dict_value (d : Dict) (k : string) : Q :=
  match dict_get d k with Some v => v | None => 0%Q end.

(** The value returned with a status: a language list or [None]. *)
Definition LanguageList : Type := list (string * Q).

(** ** Score aggregation (audio_lid.py lines 102-131) *)

Definition min_threshold : Q := 4 # 10.

(** The three accumulators of the aggregation loop. *)
Record AggState : Type := {
  total_score : Q;
  valid_count : Z;
  language_score_map : Dict
}.

Definition agg_init : AggState :=
  {| total_score := 0; valid_count := 0; language_score_map := [] |}.

(** The body of the inner loop, for one [(language_str, score)]. *)
Definition agg_pair (st : AggState) (g : Guess) : AggState :=
  let '(language_str, score) := g in
  if Qlt_bool score min_threshold then st
  else
    let language_total_score :=
      match dict_get (language_score_map st) language_str with
      | Some v => v
      | None => 0%Q
      end in
    {| total_score := (total_score st + score)%Q;
       valid_count := valid_count st + 1;
       language_score_map :=
         dict_set (language_score_map st) language_str
                  (language_total_score + score)%Q |}.

(** The inner loop over one segment's prediction list. *)
Definition agg_prediction (st : AggState) (prediction : list Guess) : AggState :=
  fold_left agg_pair prediction st.

(** The outer loop over [predictions.items()]. *)
Definition agg_loop (predictions : Predictions) : AggState :=
  fold_left (fun st kp => agg_prediction st (snd kp)) predictions agg_init.

(** [result_list.append((language_str, float(score * 100 / total_score)))]
    for every item of the map. *)
Definition normalize (total : Q) (m : Dict) : LanguageList :=
  map (fun ls => (fst ls, (snd ls * 100 / total)%Q)) m.

(** [sorted(result_list, key=lambda o: o[1], reverse=True)]: a stable sort,
    descending by the second component. *)
Fixpoint insert_desc (x : string * Q) (l : LanguageList) : LanguageList :=
  match l with
  | [] => [x]
  | y :: r =>
      if Qle_bool (snd y) (snd x) then x :: y :: r
      else y :: insert_desc x r
  end.

Fixpoint sorted_desc (l : LanguageList) : LanguageList :=
  match l with
  | [] => []
  | x :: r => insert_desc x (sorted_desc r)
  end.

(** ** Effects *)

(** What [print] is given. *)
Inductive Msg : Type :=
| MsgLoadFailed (ret : Z)
| MsgFindResult (ret : Z)
| MsgTryFindResult (ret : Z)
| MsgPredictions (predictions : Predictions)
| MsgLanguageMap (m : Dict)
| MsgResultList (result_list : LanguageList).

(** The calls [infer_language] makes to the outside. [DebugDump] stands
    for the block that writes the segments and the manifest files. *)
Inductive Call : Type :=
| LoadAudioSamples (audio_file : string)
| FindSpeechList (smp : Samples) (threshold : Q) (duration : Z)
| Infer (batch : list Samples)
| Print (m : Msg)
| DebugDump (dir_path : string) (speech_list : list SpeechObj).

(** The type of what each call returns. *)
Definition Resp (c : Call) : Type :=
  match c with
  | LoadAudioSamples _ => (Z * Samples)%type
  | FindSpeechList _ _ _ => (Z * list SpeechObj)%type
  | Infer _ => Predictions
  | Print _ => unit
  | DebugDump _ _ => unit
  end.

(** Programs: return a value, leave the process ([exit(code)]), or make a
    call and go on with its answer. *)
Inductive Prog (A : Type) : Type :=
| Ret (a : A)
| Exit (code : Z)
| Do (c : Call) (k : Resp c -> Prog A).

Arguments Ret {A} a.
Arguments Exit {A} code.
Arguments Do {A} c k.

Fixpoint bind {A B : Type} (p : Prog A) (f : A -> Prog B) : Prog B :=
  match p with
  | Ret a => f a
  | Exit code => Exit code
  | Do c k => Do c (fun x => bind (k x) f)
  end.

Definition call (c : Call) : Prog (Resp c) := Do c Ret.

Definition when (b : bool) (p : Prog unit) : Prog unit :=
  if b then p else Ret tt.

Declare Scope prog_scope.
Delimit Scope prog_scope with prog.
Notation "x <- p ;; q" := (bind p (fun x => q))
  (at level 61, p at next level, right associativity) : prog_scope.
Notation "' pat <- p ;; q" := (bind p (fun x => match x with pat => q end))
  (at level 61, pat pattern, p at next level, right associativity) : prog_scope.
Notation "p ;; q" := (bind p (fun _ => q))
  (at level 61, right associativity) : prog_scope.

(** A call together with its answer, as recorded in the trace. *)
Inductive Event : Type :=
| EvLoad (audio_file : string) (ret : Z) (smp : Samples)
| EvFind (smp : Samples) (threshold : Q) (duration : Z)
         (ret : Z) (speech_list : list SpeechObj)
| EvInfer (batch : list Samples) (predictions : Predictions)
| EvPrint (m : Msg)
| EvDump (dir_path : string) (speech_list : list SpeechObj).

Definition event_of (c : Call) : Resp c -> Event :=
  match c as c0 return Resp c0 -> Event with
  | LoadAudioSamples f => fun r => EvLoad f (fst r) (snd r)
  | FindSpeechList s t d => fun r => EvFind s t d (fst r) (snd r)
  | Infer b => fun r => EvInfer b r
  | Print m => fun _ => EvPrint m
  | DebugDump d l => fun _ => EvDump d l
  end.

(** How a run ends. *)
Inductive Outcome (A : Type) : Type :=
| Returned (a : A)
| Exited (code : Z).

Arguments Returned {A} a.
Arguments Exited {A} code.

(** The outside world: a state and an answer to every call. *)
Definition Handler (W : Type) : Type := forall c : Call, W -> Resp c * W.

Record Run (A W : Type) : Type := {
  outcome : Outcome A;
  trace : list Event;
  final : W
}.

Arguments outcome {A W} r.
Arguments trace {A W} r.
Arguments final {A W} r.

Fixpoint run {A W : Type} (h : Handler W) (p : Prog A) (w : W) : Run A W :=
  match p with
  | Ret a => {| outcome := Returned a; trace := []; final := w |}
  | Exit code => {| outcome := Exited code; trace := []; final := w |}
  | Do c k =>
      let xw := h c w in
      let r := run h (k (fst xw)) (snd xw) in
      {| outcome := outcome r;
         trace := event_of c (fst xw) :: trace r;
         final := final r |}
  end.

(** ** The orchestrator *)

(** The fields of [self.args] that [infer_language] reads. *)
Record Args : Type := {
  debug : bool;
  output_path : string;
  speech_segment_count : Z;
  speech_segment_duration : Z;
  speech_score_threshold : Q
}.

(** The parameters of the second segmentation pass. *)
Definition retry_threshold (args : Args) : Q :=
  py_max (speech_score_threshold args - (2 # 10))%Q (4 # 10).

Definition retry_duration (args : Args) : Z :=
  Z.max (speech_segment_duration args - 2) 3.

(** [a] may stand before [b] in a descending list. *)
Definition desc (a b : string * Q) : Prop := (snd b <= snd a)%Q.

(** The entries of a list whose percentage equals [q]. *)
Definition with_percentage (q : Q) (l : LanguageList) : LanguageList :=
  filter (fun e => Qeq_bool (snd e) q) l.

Section InferLanguage.

(** [ERROR_CODE_NO_VALID_LANGUAGE] is defined in error_codes.py. *)
Variable ERROR_CODE_NO_VALID_LANGUAGE : Z.

(** Lines 102-131 without the debug prints. *)
Definition aggregate (predictions : Predictions) : Z * option LanguageList :=
  let st := agg_loop predictions in
  if (Z.of_nat (List.length (language_score_map st)) =? 0)
  then (ERROR_CODE_NO_VALID_LANGUAGE, None)
  else
    let result_list := normalize (total_score st) (language_score_map st) in
    (valid_count st, Some (sorted_desc result_list)).

Local Open Scope prog_scope.

(** Lines 61-69: the first pass and, when it found too few segments, the
    second one, whose answer replaces the first. *)
Definition find_with_retry (args : Args) (smp : Samples)
  : Prog (Z * list SpeechObj) :=
  first <- call (FindSpeechList smp (speech_score_threshold args)
                                (speech_segment_duration args)) ;;
  call (Print (MsgFindResult (fst first))) ;;
  if (0 <=? fst first) && (fst first <? speech_segment_count args)
  then
    again <- call (FindSpeechList smp (retry_threshold args)
                                  (retry_duration args)) ;;
    call (Print (MsgTryFindResult (fst again))) ;;
    Ret again
  else Ret first.

(** Lines 98-131, with the debug prints in their places. *)
Definition classify_and_aggregate (args : Args) (speech_list : list SpeechObj)
  : Prog (Z * option LanguageList) :=
  predictions <- call (Infer (map samples speech_list)) ;;
  when (debug args) (call (Print (MsgPredictions predictions))) ;;
  when (debug args)
       (call (Print (MsgLanguageMap (language_score_map (agg_loop predictions))))) ;;
  match snd (aggregate predictions) with
  | None => Ret (aggregate predictions)
  | Some result_list =>
      when (debug args) (call (Print (MsgResultList result_list))) ;;
      Ret (aggregate predictions)
  end.

Definition infer_language (args : Args) (audio_file : string)
  : Prog (Z * option LanguageList) :=
  loaded <- call (LoadAudioSamples audio_file) ;;
  if fst loaded <? 0
  then call (Print (MsgLoadFailed (fst loaded))) ;; Exit 1
  else
    found <- find_with_retry args (snd loaded) ;;
    when (debug args && (fst found >? 0))
         (call (DebugDump (output_path args) (snd found))) ;;
    if fst found <? 0
    then Ret (fst found, None)
    else classify_and_aggregate args (snd found).

End InferLanguage.

(** ** Reading a trace *)

(** The segmentation passes of a trace: request and returned status. *)
Fixpoint find_requests (t : list Event) : list (Samples * Q * Z) :=
  match t with
  | [] => []
  | EvFind s thr d _ _ :: r => (s, thr, d) :: find_requests r
  | _ :: r => find_requests r
  end.

Fixpoint find_statuses (t : list Event) : list Z :=
  match t with
  | [] => []
  | EvFind _ _ _ ret _ :: r => ret :: find_statuses r
  | _ :: r => find_statuses r
  end.

(** The batches sent to the classifier. *)
Fixpoint infer_requests (t : list Event) : list (list Samples) :=
  match t with
  | [] => []
  | EvInfer b _ :: r => b :: infer_requests r
  | _ :: r => infer_requests r
  end.

Fixpoint last_opt {A : Type} (l : list A) : option A :=
  match l with
  | [] => None
  | [x] => Some x
  | _ :: r => last_opt r
  end.

(** What each segmentation pass answered: status and speech list. *)
Fixpoint find_answers (t : list Event) : list (Z * list SpeechObj) :=
  match t with
  | [] => []
  | EvFind _ _ _ ret speech_list :: r => (ret, speech_list) :: find_answers r
  | _ :: r => find_answers r
  end.

(** The audio sources that were loaded. *)
Fixpoint load_requests (t : list Event) : list string :=
  match t with
  | [] => []
  | EvLoad audio_file _ _ :: r => audio_file :: load_requests r
  | _ :: r => load_requests r
  end.

(** The status that each load returned. *)
Fixpoint load_statuses (t : list Event) : list Z :=
  match t with
  | [] => []
  | EvLoad _ ret _ :: r => ret :: load_statuses r
  | _ :: r => load_statuses r
  end.

(** The debug dumps: directory and dumped speech list. *)
Fixpoint dump_requests (t : list Event) : list (string * list SpeechObj) :=
  match t with
  | [] => []
  | EvDump dir_path speech_list :: r => (dir_path, speech_list) :: dump_requests r
  | _ :: r => dump_requests r
  end.

(** Everything that was printed. *)
Fixpoint prints (t : list Event) : list Msg :=
  match t with
  | [] => []
  | EvPrint m :: r => m :: prints r
  | _ :: r => prints r
  end.

(** The prints that report a status code; the others show data and are
    made in debug mode only. *)
Definition is_status_msg (m : Msg) : bool :=
  match m with
  | MsgLoadFailed _ | MsgFindResult _ | MsgTryFindResult _ => true
  | _ => false
  end.

(** ** Reading a prediction batch *)

(** Every (language, score) pair of the batch, in traversal order. *)
Definition all_guesses (predictions : Predictions) : list Guess :=
  List.concat (map snd predictions).

(** A pair passes the filter when its score is not below the floor. *)
Definition kept (g : Guess) : bool := negb (Qlt_bool (snd g) min_threshold).

Definition valid_guesses (predictions : Predictions) : list Guess :=
  filter kept (all_guesses predictions).

(** The elements of [l] that are not in [seen], without repetition, in
    order of first occurrence. *)
Fixpoint first_seen (seen l : list string) : list string :=
  match l with
  | [] => []
  | x :: r =>
      if existsb (String.eqb x) seen then first_seen seen r
      else x :: first_seen (seen ++ [x]) r
  end.

(** A score strictly above the floor. *)
Definition exceeds_floor (g : Guess) : Prop := (min_threshold < snd g)%Q.

(** A result that is absent ([None]) or an empty list. *)
Definition result_empty (r : option LanguageList) : Prop :=
  r = None \/ r = Some [].

(** ** A scripted outside world, for running examples *)

Record Script : Type := {
  script_load : Z * Samples;
  script_find : list (Z * list SpeechObj);
  script_infer : Predictions
}.

Definition scripted : Handler Script :=
  fun c =>
    match c as c0 return Script -> Resp c0 * Script with
    | LoadAudioSamples _ => fun w => (script_load w, w)
    | FindSpeechList _ _ _ => fun w =>
        match script_find w with
        | [] => ((0, []), w)
        | r :: rest =>
            (r, {| script_load := script_load w;
                   script_find := rest;
                   script_infer := script_infer w |})
        end
    | Infer _ => fun w => (script_infer w, w)
    | Print _ => fun w => (tt, w)
    | DebugDump _ _ => fun w => (tt, w)
    end.

Definition default_args : Args :=
  {| debug := false; output_path := "./temp";
     speech_segment_count := 5; speech_segment_duration := 5;
     speech_score_threshold := 7 # 10 |}.

Definition seg (n : Z) : SpeechObj := {| samples := [n] |}.

Definition two_pass_predictions : Predictions :=
  [("s1", [("eng", 8 # 10); ("fra", 3 # 10)]); ("s2", [("eng", 6 # 10)])]%string.

(** Loading fails with status [-3]. *)
Definition world_load_fails : Script :=
  {| script_load := (-3, []); script_find := []; script_infer := [] |}.

(** The first pass finds 2 segments (fewer than 5), the second finds 3. *)
Definition world_retry : Script :=
  {| script_load := (0, [1; 2; 3]);
     script_find := [(2, [seg 1; seg 2]); (3, [seg 4; seg 5; seg 6])];
     script_infer := two_pass_predictions |}.

(** The first pass finds 2 segments, the second fails with status [-4]. *)
Definition world_retry_fails : Script :=
  {| script_load := (0, [1; 2; 3]);
     script_find := [(2, [seg 1; seg 2]); (-4, [])];
     script_infer := two_pass_predictions |}.

(** The first pass finds 4 segments (fewer than 5), the second finds none. *)
Definition world_retry_loses : Script :=
  {| script_load := (0, [1; 2; 3]);
     script_find := [(4, [seg 1; seg 2; seg 3; seg 4]); (0, [])];
     script_infer := [] |}.

(** The first pass finds 5 segments: enough. *)
Definition world_enough : Script :=
  {| script_load := (0, [1; 2; 3]);
     script_find := [(5, [seg 1; seg 2; seg 3; seg 4; seg 5])];
     script_infer := two_pass_predictions |}.

Definition debug_args : Args :=
  {| debug := true; output_path := "./temp";
     speech_segment_count := 5; speech_segment_duration := 5;
     speech_score_threshold := 7 # 10 |}.

(** A configuration whose relaxed parameters fall under the floors:
    0.5 - 0.2 < 0.4 and 4 - 2 < 3. *)
Definition floor_args : Args :=
  {| debug := false; output_path := "./temp";
     speech_segment_count := 5; speech_segment_duration := 4;
     speech_score_threshold := 5 # 10 |}.

(** ** The debug dump (audio_lid.py lines 73-94) and the report of the
    script (lines 181-188) *)

Definition nl : string := String "010"%char EmptyString.
Definition tab : string := String "009"%char EmptyString.

(** Python's [str] of a non-negative [int] and of any [int], as used by
    the f-strings. *)
Definition str_nat (n : nat) : string :=
  DecimalString.NilZero.string_of_uint (Nat.to_uint n).

Definition str_int (z : Z) : string :=
  DecimalString.NilZero.string_of_int (Z.to_int z).

(** What the dump and the report do to the outside, in order. [OpOpen] is
    [open] for writing, which creates or truncates the file. *)
Inductive FileOp : Type :=
| OpPrintDir (dir_path : string)
| OpMakeDirs (dir_path : string)
| OpPrintObj (speech_obj : SpeechObj)
| OpWavWrite (file_path : string) (rate : Z) (smp : Samples)
| OpOpen (file_path : string)
| OpWrite (file_path : string) (text : string)
| OpClose (file_path : string)
| OpPrintResult (ret : Z) (language_list : option LanguageList).

(** The variables of the loop over [speech_list]. *)
Record DumpState : Type := {
  index : nat;
  file_path_list : list string;
  dump_ops : list FileOp
}.

Definition wav_name (i : nat) : string :=
  ("index_" ++ str_nat i ++ ".wav")%string.

Section DebugDump.

(** [os.path.join] and [os.path.abspath]. *)
Variable path_join : string -> string -> string.
Variable abspath : string -> string.

(** One turn of the loop over [speech_list]. *)
Definition dump_step (dir_path : string) (st : DumpState) (speech_obj : SpeechObj)
  : DumpState :=
  let i := S (index st) in
  let file_path := path_join dir_path (wav_name i) in
  {| index := i;
     file_path_list := file_path_list st ++ [abspath file_path];
     dump_ops := dump_ops st ++
                 [OpPrintObj speech_obj;
                  OpWavWrite file_path 16000 (samples speech_obj)] |}.

(** The block guarded by [debug] and [ret > 0]; [dir_exists] is the answer
    of [os.path.exists(dir_path)]. *)
Definition debug_dump (dir_exists : bool) (dir_path : string)
                      (speech_list : list SpeechObj) : list FileOp :=
  let st := fold_left (dump_step dir_path) speech_list
              {| index := 0; file_path_list := [];
                 dump_ops := OpPrintDir dir_path ::
                             (if dir_exists then [] else [OpMakeDirs dir_path]) |} in
  let manifest_tsv_file := path_join dir_path "manifest.tsv" in
  let manifest_lang_file := path_join dir_path "manifest.lang" in
  dump_ops st ++
  [OpOpen manifest_tsv_file; OpWrite manifest_tsv_file ("/" ++ nl)] ++
  map (fun file_path =>
         OpWrite manifest_tsv_file (file_path ++ tab ++ "16000" ++ nl))
      (file_path_list st) ++
  [OpClose manifest_tsv_file; OpOpen manifest_lang_file] ++
  map (fun _ => OpWrite manifest_lang_file ("eng" ++ tab ++ "1" ++ nl))
      (file_path_list st) ++
  [OpClose manifest_lang_file].

End DebugDump.

(** How the script ends: at its last line, because [infer_language] left
    the process, or by the exception of a failed [open]. *)
Inductive ScriptEnd : Type :=
| ScriptDone
| ScriptExited (code : Z)
| ScriptRaised.

Section Report.

(** [json.dumps]. *)
Variable json_dumps : LanguageList -> string.

(** Whether [open] of [predictions.txt] succeeds. It raises when
    [output_path] is not an existing directory; the script never creates
    that directory, only the debug dump of [infer_language] does. *)
Variable open_ok : bool.

(** Lines 181-188: what the script does with the outcome of
    [infer_language], and how it ends. Nothing is done when the process
    has exited; when [open] raises, the exception ends the script before
    anything is written or printed. *)
Definition main_report (args : Args) (o : Outcome (Z * option LanguageList))
  : list FileOp * ScriptEnd :=
  match o with
  | Exited code => ([], ScriptExited code)
  | Returned (ret, language_list) =>
      if debug args
      then
        if open_ok
        then
          let file := (output_path args ++ "/predictions.txt")%string in
          ([OpOpen file; OpWrite file ("ret:" ++ str_int ret ++ nl)] ++
           match language_list with
           | Some l =>
               if 0 <? Z.of_nat (List.length l)
               then [OpWrite file (json_dumps l ++ nl)]
               else []
           | None => []
           end ++
           [OpClose file; OpPrintResult ret language_list],
           ScriptDone)
        else ([], ScriptRaised)
      else ([OpPrintResult ret language_list], ScriptDone)
  end.

End Report.

(** The wav files written: path, rate and samples. *)
Fixpoint wav_writes (ops : list FileOp) : list (string * Z * Samples) :=
  match ops with
  | [] => []
  | OpWavWrite file_path rate smp :: r => (file_path, rate, smp) :: wav_writes r
  | _ :: r => wav_writes r
  end.

(** The texts written to one file, in order. *)
Fixpoint written_text (file_path : string) (ops : list FileOp) : list string :=
  match ops with
  | [] => []
  | OpWrite f text :: r =>
      if String.eqb f file_path then text :: written_text file_path r
      else written_text file_path r
  | _ :: r => written_text file_path r
  end.

(** The directories created. *)
Fixpoint made_dirs (ops : list FileOp) : list string :=
  match ops with
  | [] => []
  | OpMakeDirs d :: r => d :: made_dirs r
  | _ :: r => made_dirs r
  end.

(** A POSIX [os.path.join] for a relative second component. *)
Definition posix_join (a b : string) : string := (a ++ "/" ++ b)%string.

(** [posixpath.join(a, b)]: an absolute [b] replaces [a]; otherwise [b] is
    appended, after a separator unless [a] is empty or ends with one. *)
Definition starts_with_slash (s : string) : bool :=
  match s with
  | String c _ => Ascii.eqb c "/"
  | EmptyString => false
  end.

Fixpoint ends_with_slash (s : string) : bool :=
  match s with
  | EmptyString => false
  | String c EmptyString => Ascii.eqb c "/"
  | String _ r => ends_with_slash r
  end.

Definition os_path_join (a b : string) : string :=
  if starts_with_slash b then b
  else if String.eqb a "" || ends_with_slash a then (a ++ b)%string
  else (a ++ "/" ++ b)%string.

(** * Properties *)

(** ** Comparisons of rationals *)

Lemma Qlt_bool_iff (x y : Q) : Qlt_bool x y = true <-> (x < y)%Q.
Proof.
  unfold Qlt_bool. rewrite negb_true_iff.
  split; intro H.
  - apply Qnot_le_lt. intro L. apply Qle_bool_iff in L. congruence.
  - destruct (Qle_bool y x) eqn:E; [|reflexivity].
    apply Qle_bool_iff in E. exfalso. revert H. apply Qle_not_lt, E.
Qed.

Lemma Qlt_bool_false_iff (x y : Q) : Qlt_bool x y = false <-> (y <= x)%Q.
Proof.
  unfold Qlt_bool. rewrite negb_false_iff. apply Qle_bool_iff.
Qed.

Lemma kept_iff (g : Guess) : kept g = true <-> (min_threshold <= snd g)%Q.
Proof. unfold kept. rewrite negb_true_iff. apply Qlt_bool_false_iff. Qed.

Lemma kept_false_iff (g : Guess) : kept g = false <-> (snd g < min_threshold)%Q.
Proof. unfold kept. rewrite negb_false_iff. apply Qlt_bool_iff. Qed.

(** ** Insertion-ordered dicts *)

Lemma dict_get_set_same (d : Dict) (k : string) (v : Q) :
  dict_get (dict_set d k v) k = Some v.
Proof.
  induction d as [|[k' v'] r IH]; simpl.
  - now rewrite String.eqb_refl.
  - destruct (String.eqb k' k) eqn:E; simpl; rewrite E; auto.
Qed.

Lemma dict_get_set_other (d : Dict) (k k' : string) (v : Q) :
  k' <> k -> dict_get (dict_set d k v) k' = dict_get d k'.
Proof.
  intros Hne. induction d as [|[k0 v0] r IH]; simpl.
  - destruct (String.eqb k k') eqn:E; [|reflexivity].
    apply String.eqb_eq in E. congruence.
  - destruct (String.eqb k0 k) eqn:E; simpl.
    + apply String.eqb_eq in E. subst k0.
      destruct (String.eqb k k') eqn:E'; [|reflexivity].
      apply String.eqb_eq in E'. congruence.
    + now rewrite IH.
Qed.

Lemma dict_get_keys (d : Dict) (k : string) :
  existsb (String.eqb k) (dict_keys d) = true <-> dict_get d k <> None.
Proof.
  induction d as [|[k' v'] r IH]; simpl.
  - split; [discriminate | congruence].
  - rewrite (String.eqb_sym k k').
    destruct (String.eqb k' k); simpl; [|exact IH].
    split; [discriminate | reflexivity].
Qed.

Lemma dict_keys_set (d : Dict) (k : string) (v : Q) :
  dict_keys (dict_set d k v) =
  if existsb (String.eqb k) (dict_keys d) then dict_keys d
  else dict_keys d ++ [k].
Proof.
  induction d as [|[k' v'] r IH]; simpl; [reflexivity|].
  rewrite (String.eqb_sym k k').
  destruct (String.eqb k' k) eqn:E; simpl; [reflexivity|].
  rewrite IH.
  now destruct (existsb (String.eqb k) (dict_keys r)).
Qed.

(** ** The aggregation loop *)

Lemma agg_pair_dropped (st : AggState) (g : Guess) :
  kept g = false -> agg_pair st g = st.
Proof.
  destruct g as [l s]. unfold kept, agg_pair. simpl.
  rewrite negb_false_iff. intros ->. reflexivity.
Qed.

Lemma agg_pair_kept (st : AggState) (g : Guess) :
  kept g = true ->
  agg_pair st g =
  {| total_score := (total_score st + snd g)%Q;
     valid_count := valid_count st + 1;
     language_score_map :=
       dict_set (language_score_map st) (fst g)
                (dict_value (language_score_map st) (fst g) + snd g)%Q |}.
Proof.
  destruct g as [l s]. unfold kept, agg_pair. simpl.
  rewrite negb_true_iff. intros ->. reflexivity.
Qed.

(** The two nested loops visit the pairs of [all_guesses] in order. *)
Lemma agg_loop_flat (predictions : Predictions) :
  agg_loop predictions = fold_left agg_pair (all_guesses predictions) agg_init.
Proof.
  unfold agg_loop, all_guesses. generalize agg_init.
  induction predictions as [|[key prediction] r IH]; intros st; simpl.
  - reflexivity.
  - rewrite fold_left_app. apply IH.
Qed.

Lemma agg_valid_count (gs : list Guess) (st : AggState) :
  valid_count (fold_left agg_pair gs st) =
  valid_count st + Z.of_nat (List.length (filter kept gs)).
Proof.
  revert st. induction gs as [|g gs IH]; intros st; simpl.
  - lia.
  - rewrite IH. destruct (kept g) eqn:K.
    + rewrite (agg_pair_kept _ _ K). simpl valid_count.
      change (List.length (g :: filter kept gs)) with (S (List.length (filter kept gs))).
      lia.
    + now rewrite (agg_pair_dropped _ _ K).
Qed.

Lemma agg_map_keys (gs : list Guess) (st : AggState) :
  dict_keys (language_score_map (fold_left agg_pair gs st)) =
  dict_keys (language_score_map st) ++
  first_seen (dict_keys (language_score_map st)) (map fst (filter kept gs)).
Proof.
  revert st. induction gs as [|g gs IH]; intros st; simpl.
  - now rewrite app_nil_r.
  - rewrite IH. destruct (kept g) eqn:K.
    + rewrite (agg_pair_kept _ _ K). simpl language_score_map.
      rewrite dict_keys_set. simpl map. simpl first_seen.
      destruct (existsb (String.eqb (fst g)) (dict_keys (language_score_map st))).
      * reflexivity.
      * now rewrite <- app_assoc.
    + rewrite (agg_pair_dropped _ _ K). reflexivity.
Qed.

(** ** The sort *)

Lemma insert_desc_perm (x : string * Q) (l : LanguageList) :
  Permutation (insert_desc x l) (x :: l).
Proof.
  induction l as [|y r IH]; cbn [insert_desc].
  - apply Permutation_refl.
  - destruct (Qle_bool (snd y) (snd x)).
    + apply Permutation_refl.
    + apply perm_trans with (y :: x :: r).
      * now apply perm_skip.
      * apply perm_swap.
Qed.

Lemma sorted_desc_perm (l : LanguageList) : Permutation (sorted_desc l) l.
Proof.
  induction l as [|x r IH]; cbn [sorted_desc].
  - apply perm_nil.
  - apply perm_trans with (x :: sorted_desc r).
    + apply insert_desc_perm.
    + now apply perm_skip.
Qed.

Lemma insert_desc_hd (x y : string * Q) (l : LanguageList) :
  desc y x -> HdRel desc y l -> HdRel desc y (insert_desc x l).
Proof.
  intros Hyx Hl. destruct l as [|z r]; cbn [insert_desc].
  - now constructor.
  - destruct (Qle_bool (snd z) (snd x)).
    + now constructor.
    + constructor. now inversion Hl.
Qed.

Lemma insert_desc_sorted (x : string * Q) (l : LanguageList) :
  Sorted desc l -> Sorted desc (insert_desc x l).
Proof.
  induction 1 as [|y r Hr IH Hy]; cbn [insert_desc].
  - repeat constructor.
  - destruct (Qle_bool (snd y) (snd x)) eqn:E.
    + constructor.
      * now constructor.
      * constructor. now apply Qle_bool_iff.
    + constructor; [exact IH|].
      apply insert_desc_hd; [|exact Hy].
      unfold desc. apply Qlt_le_weak, Qnot_le_lt.
      intros L. apply Qle_bool_iff in L. congruence.
Qed.

Lemma sorted_desc_sorted (l : LanguageList) : Sorted desc (sorted_desc l).
Proof.
  induction l as [|x r IH]; cbn [sorted_desc].
  - constructor.
  - now apply insert_desc_sorted.
Qed.

Lemma desc_trans (a b c : string * Q) : desc a b -> desc b c -> desc a c.
Proof. unfold desc. intros H1 H2. now apply Qle_trans with (snd b). Qed.

Lemma sorted_desc_strongly (l : LanguageList) :
  StronglySorted desc (sorted_desc l).
Proof.
  apply Sorted_StronglySorted.
  - intros a b c. apply desc_trans.
  - apply sorted_desc_sorted.
Qed.

(** Stability: among equal percentages the order of the input is kept. *)
Lemma insert_desc_stable (q : Q) (x : string * Q) (l : LanguageList) :
  with_percentage q (insert_desc x l) = with_percentage q (x :: l).
Proof.
  unfold with_percentage.
  induction l as [|y r IH]; cbn [insert_desc]; [reflexivity|].
  destruct (Qle_bool (snd y) (snd x)) eqn:E; [reflexivity|].
  cbn [filter] in *. rewrite IH.
  destruct (Qeq_bool (snd x) q) eqn:Ex; [|reflexivity].
  destruct (Qeq_bool (snd y) q) eqn:Ey; [|reflexivity].
  apply Qeq_bool_iff in Ex, Ey.
  assert (L : Qle_bool (snd y) (snd x) = true).
  { apply Qle_bool_iff. rewrite Ex, Ey. apply Qle_refl. }
  congruence.
Qed.

Lemma sorted_desc_stable (q : Q) (l : LanguageList) :
  with_percentage q (sorted_desc l) = with_percentage q l.
Proof.
  induction l as [|x r IH]; cbn [sorted_desc]; [reflexivity|].
  rewrite insert_desc_stable. unfold with_percentage in *.
  cbn [filter]. now rewrite IH.
Qed.

(** ** Normalisation *)

Lemma normalize_keys (total : Q) (m : Dict) :
  map fst (normalize total m) = dict_keys m.
Proof.
  unfold normalize, dict_keys. rewrite map_map. reflexivity.
Qed.

(** ** The keys of the language score map *)

Lemma existsb_eqb_in (x : string) (l : list string) :
  existsb (String.eqb x) l = true <-> In x l.
Proof.
  rewrite existsb_exists. split.
  - intros [y [Hy E]]. apply String.eqb_eq in E. now subst.
  - intros H. exists x. split; [exact H | apply String.eqb_refl].
Qed.

Lemma first_seen_nodup (l seen : list string) :
  NoDup seen -> NoDup (seen ++ first_seen seen l).
Proof.
  revert seen. induction l as [|x r IH]; intros seen Hs; cbn [first_seen].
  - now rewrite app_nil_r.
  - destruct (existsb (String.eqb x) seen) eqn:E.
    + now apply IH.
    + change (x :: first_seen (seen ++ [x]) r)
        with ([x] ++ first_seen (seen ++ [x]) r).
      rewrite app_assoc. apply IH.
      apply NoDup_app; [exact Hs | repeat constructor; simpl; tauto |].
      intros y Hy [<-|[]].
      apply existsb_eqb_in in Hy. congruence.
Qed.

Lemma dict_get_in (d : Dict) (k : string) (v : Q) :
  NoDup (dict_keys d) -> In (k, v) d -> dict_get d k = Some v.
Proof.
  induction d as [|[k' v'] r IH]; cbn [dict_keys map fst dict_get In].
  - tauto.
  - intros Hnd [E|Hin].
    + inversion E; subst. now rewrite String.eqb_refl.
    + inversion Hnd as [|? ? Hk Hr]; subst.
      destruct (String.eqb k' k) eqn:E.
      * apply String.eqb_eq in E. subst k'.
        exfalso. apply Hk. apply (in_map fst) in Hin. exact Hin.
      * now apply IH.
Qed.

Lemma agg_loop_keys (predictions : Predictions) :
  dict_keys (language_score_map (agg_loop predictions)) =
  first_seen [] (map fst (valid_guesses predictions)).
Proof. rewrite agg_loop_flat, agg_map_keys. reflexivity. Qed.

Lemma agg_loop_nodup (predictions : Predictions) :
  NoDup (dict_keys (language_score_map (agg_loop predictions))).
Proof.
  rewrite agg_loop_keys.
  apply (first_seen_nodup _ []). constructor.
Qed.

Lemma agg_loop_empty_iff (predictions : Predictions) :
  language_score_map (agg_loop predictions) = [] <->
  valid_guesses predictions = [].
Proof.
  pose proof (agg_loop_keys predictions) as K.
  destruct (valid_guesses predictions) as [|g gs];
    destruct (language_score_map (agg_loop predictions)) as [|e m];
    cbn in K; split; intros H; congruence.
Qed.

Section AggregateFacts.

Variable E : Z.

Lemma aggregate_none_iff (predictions : Predictions) :
  snd (aggregate E predictions) = None <-> valid_guesses predictions = [].
Proof.
  rewrite <- agg_loop_empty_iff. unfold aggregate.
  destruct (language_score_map (agg_loop predictions)) as [|e m] eqn:M.
  - cbn. tauto.
  - cbn [List.length]. rewrite Nat2Z.inj_succ.
    destruct (Z.succ (Z.of_nat (List.length m)) =? 0) eqn:Z0.
    + apply Z.eqb_eq in Z0. lia.
    + cbn. split; discriminate.
Qed.

Lemma aggregate_none (predictions : Predictions) :
  valid_guesses predictions = [] -> aggregate E predictions = (E, None).
Proof.
  intros H. apply agg_loop_empty_iff in H. unfold aggregate.
  now rewrite H.
Qed.

Lemma aggregate_some (predictions : Predictions) (result : LanguageList) :
  snd (aggregate E predictions) = Some result ->
  valid_guesses predictions <> [] /\
  aggregate E predictions =
    (valid_count (agg_loop predictions),
     Some (sorted_desc (normalize (total_score (agg_loop predictions))
                                  (language_score_map (agg_loop predictions))))).
Proof.
  intros H. split.
  - intros V. apply aggregate_none_iff in V. congruence.
  - unfold aggregate in *.
    destruct (Z.of_nat (List.length (language_score_map (agg_loop predictions))) =? 0);
      [discriminate | reflexivity].
Qed.

End AggregateFacts.

(** ** Pairs of a batch *)

Lemma all_guesses_in (predictions : Predictions) (g : Guess) :
  In g (all_guesses predictions) <->
  exists key prediction, In (key, prediction) predictions /\ In g prediction.
Proof.
  unfold all_guesses. rewrite in_concat. split.
  - intros [prediction [Hp Hg]]. apply in_map_iff in Hp.
    destruct Hp as [[key pr] [E Hin]]. cbn in E. subst pr.
    now exists key, prediction.
  - intros [key [prediction [Hin Hg]]]. exists prediction. split; [|exact Hg].
    apply in_map_iff. now exists (key, prediction).
Qed.

Lemma valid_guesses_nil_iff (predictions : Predictions) :
  valid_guesses predictions = [] <->
  forall g, In g (all_guesses predictions) -> (snd g < min_threshold)%Q.
Proof.
  unfold valid_guesses. split.
  - intros H g Hg. apply kept_false_iff.
    destruct (kept g) eqn:K; [|reflexivity].
    assert (Hin : In g (filter kept (all_guesses predictions)))
      by (apply filter_In; auto).
    rewrite H in Hin. destruct Hin.
  - intros H. induction (all_guesses predictions) as [|g gs IH]; [reflexivity|].
    cbn [filter]. rewrite (proj2 (kept_false_iff g)) by (apply H; now left).
    apply IH. intros g' Hg'. apply H. now right.
Qed.

Lemma dict_get_some_in (d : Dict) (k : string) (v : Q) :
  dict_get d k = Some v -> In (k, v) d.
Proof.
  induction d as [|[k' v'] r IH]; cbn [dict_get]; [discriminate|].
  destruct (String.eqb k' k) eqn:E.
  - apply String.eqb_eq in E. intros [= ->]. subst. now left.
  - intros H. right. now apply IH.
Qed.

(** * The claims on aggregation *)

(** C2. Aggregation filtering: the loops visit every (language, score)
    pair of every prediction list in order; a pair is discarded exactly
    when [score < 0.4]; a pair that is not discarded adds [score] to the
    language's entry of the score map (leaving the other entries alone),
    adds [1] to [valid_count] and [score] to [total_score]; a score of
    exactly [0.4] is kept. *)
Theorem aggregation_filtering
  (predictions : Predictions) (st : AggState) (language_str : string) (score : Q) :
  agg_loop predictions = fold_left agg_pair (all_guesses predictions) agg_init /\
  (Qlt_bool score min_threshold = true <-> (score < 4 # 10)%Q) /\
  (if Qlt_bool score min_threshold
   then agg_pair st (language_str, score) = st
   else
     let st' := agg_pair st (language_str, score) in
     dict_get (language_score_map st') language_str =
       Some (dict_value (language_score_map st) language_str + score)%Q /\
     (forall other, other <> language_str ->
        dict_get (language_score_map st') other =
        dict_get (language_score_map st) other) /\
     valid_count st' = valid_count st + 1 /\
     total_score st' = (total_score st + score)%Q) /\
  valid_count (agg_pair st (language_str, 4 # 10)) = valid_count st + 1.
Proof.
  split; [apply agg_loop_flat|].
  split; [apply Qlt_bool_iff|].
  split; [|reflexivity].
  destruct (Qlt_bool score min_threshold) eqn:L.
  - apply agg_pair_dropped. unfold kept. cbn [snd]. now rewrite L.
  - assert (K : kept (language_str, score) = true)
      by (unfold kept; cbn [snd]; now rewrite L).
    cbv zeta. rewrite (agg_pair_kept _ _ K).
    cbn [language_score_map valid_count total_score fst snd].
    repeat split.
    + apply dict_get_set_same.
    + intros other Hne. now apply dict_get_set_other.
Qed.

(** C3. When every (segment, language, score) triple of the batch has
    [score < 0.4], the language score map is empty after the loop and
    aggregation returns the NO_VALID_LANGUAGE status with no result. *)
Theorem no_valid_language (E : Z) (predictions : Predictions) :
  (forall key prediction language_str score,
      In (key, prediction) predictions ->
      In (language_str, score) prediction ->
      (score < 4 # 10)%Q) ->
  language_score_map (agg_loop predictions) = [] /\
  aggregate E predictions = (E, None).
Proof.
  intros H.
  assert (V : valid_guesses predictions = []).
  { apply valid_guesses_nil_iff.
    intros [l s] Hg. apply all_guesses_in in Hg.
    destruct Hg as [key [prediction [Hp Hg]]].
    exact (H key prediction l s Hp Hg). }
  split; [now apply agg_loop_empty_iff | now apply aggregate_none].
Qed.

Lemma no_valid_language_witness :
  aggregate (-1) [("s1", [("eng", 3 # 10); ("fra", 1 # 10)]);
                  ("s2", [("deu", 39 # 100)])]%string
  = (-1, None).
Proof.
  apply no_valid_language.
  intros key prediction language_str score Hp Hg.
  cbn [In] in Hp.
  destruct Hp as [Hp|[Hp|[]]]; inversion Hp; subst; cbn [In] in Hg;
    repeat (destruct Hg as [Hg|Hg]; [inversion Hg; subst; reflexivity|]);
    destruct Hg.
Defined.

(** C5. Ordering: the returned list is in descending order of percentage
    (equal neighbours allowed); it holds the normalised entries of the score
    map, and entries of equal percentage stand in the order in which their
    languages were first met among the valid pairs of the batch, so the
    order among ties is fixed by the batch. *)
Theorem aggregate_ordering (E : Z) (predictions : Predictions) (result : LanguageList) :
  snd (aggregate E predictions) = Some result ->
  let st := agg_loop predictions in
  let unsorted := normalize (total_score st) (language_score_map st) in
  StronglySorted desc result /\
  Permutation result unsorted /\
  (forall q, with_percentage q result = with_percentage q unsorted) /\
  map fst unsorted = first_seen [] (map fst (valid_guesses predictions)).
Proof.
  intros H st unsorted. subst st unsorted.
  destruct (aggregate_some E _ _ H) as [_ Hagg].
  rewrite Hagg in H. cbn [snd] in H. injection H as <-.
  split; [apply sorted_desc_strongly|].
  split; [apply sorted_desc_perm|].
  split; [intros q; apply sorted_desc_stable|].
  rewrite normalize_keys. apply agg_loop_keys.
Qed.

Lemma aggregate_ordering_witness :
  StronglySorted desc
    [("fra"%string, ((0 + (6 # 10)) * 100 / (0 + (4 # 10) + (6 # 10) + (4 # 10)))%Q);
     ("eng"%string, ((0 + (4 # 10)) * 100 / (0 + (4 # 10) + (6 # 10) + (4 # 10)))%Q);
     ("deu"%string, ((0 + (4 # 10)) * 100 / (0 + (4 # 10) + (6 # 10) + (4 # 10)))%Q)].
Proof.
  apply (aggregate_ordering (-1)
           [("s1", [("eng", 4 # 10); ("fra", 6 # 10); ("deu", 4 # 10)])]%string).
  reflexivity.
Defined.

(** C8, as stated, fails: with a single pair whose score is exactly 0.4 no
    pair exceeds the floor, and yet the result is a non-empty list. *)
Lemma exceeds_floor_claim_fails :
  ~ (result_empty (snd (aggregate (-1) [("s1", [("eng", 4 # 10)])]%string)) <->
     (forall g, In g (all_guesses [("s1", [("eng", 4 # 10)])]%string) ->
                ~ exceeds_floor g)).
Proof.
  intros [_ H].
  assert (R : result_empty (snd (aggregate (-1) [("s1", [("eng", 4 # 10)])]%string))).
  { apply H. intros g [<-|[]]. unfold exceeds_floor. cbn [snd].
    apply Qlt_irrefl. }
  destruct R as [R|R]; discriminate R.
Qed.

(** C8, amended. The result is absent exactly when no pair of the batch
    reaches the floor (every score is below 0.4); a returned list is never
    empty. *)
Theorem aggregate_result_absent_iff (E : Z) (predictions : Predictions) :
  (result_empty (snd (aggregate E predictions)) <->
   (forall g, In g (all_guesses predictions) -> (snd g < 4 # 10)%Q)) /\
  (forall result, snd (aggregate E predictions) = Some result -> result <> []).
Proof.
  assert (Hne : forall result,
             snd (aggregate E predictions) = Some result -> result <> []).
  { intros result H. destruct (aggregate_some E _ _ H) as [Hv Hagg].
    rewrite Hagg in H. cbn [snd] in H. injection H as <-.
    intros Hnil.
    pose proof (sorted_desc_perm
                  (normalize (total_score (agg_loop predictions))
                             (language_score_map (agg_loop predictions)))) as P.
    rewrite Hnil in P. apply Permutation_nil in P.
    apply (f_equal (map fst)) in P. rewrite normalize_keys in P.
    rewrite agg_loop_keys in P.
    destruct (valid_guesses predictions); [congruence | discriminate P]. }
  split; [|exact Hne].
  rewrite <- valid_guesses_nil_iff, <- (aggregate_none_iff E).
  unfold result_empty. split.
  - intros [H|H]; [exact H|]. exfalso. now apply (Hne [] H).
  - intros H. now left.
Qed.

(** * The claims on the orchestrator *)

(** ** Running [infer_language] against any outside world *)

Ltac run_step :=
  cbn [run bind call outcome trace final event_of fst snd Resp
       find_requests find_statuses infer_requests hd_error last_opt].

(** Name the answer of the innermost pending call of handler [h]. *)
Ltac name_answer h :=
  match goal with
  | |- context [h ?c ?w0] =>
      lazymatch c with
      | context [h] => fail
      | _ => lazymatch w0 with
             | context [h] => fail
             | _ => let x := fresh "ans" in
                    let w' := fresh "w" in
                    destruct (h c w0) as [x w'] eqn:?; cbn [Resp] in x
             end
      end
  end.

(** Split on the test the program is about to make. *)
Ltac split_branch h :=
  match goal with
  | |- context [run h (bind (if ?b then _ else _) _) _] => destruct b eqn:?
  | |- context [run h (if ?b then _ else _) _] => destruct b eqn:?
  | |- context [run h (match snd (aggregate ?e ?p) with _ => _ end) _] =>
      destruct (snd (aggregate e p)) eqn:?
  end.

Ltac run_cases h :=
  unfold infer_language, find_with_retry, classify_and_aggregate, when;
  run_step;
  repeat (first [ name_answer h | split_branch h ]; run_step).

(** Turn the recorded tests into arithmetic facts. *)
Ltac tests_to_Z :=
  repeat match goal with
         | H : (_ && _) = true |- _ => apply andb_true_iff in H; destruct H
         | H : (_ && _) = false |- _ => apply andb_false_iff in H
         | H : (_ <? _) = true |- _ => apply Z.ltb_lt in H
         | H : (_ <? _) = false |- _ => apply Z.ltb_ge in H
         | H : (_ <=? _) = true |- _ => apply Z.leb_le in H
         | H : (_ <=? _) = false |- _ => apply Z.leb_gt in H
         | H : (_ >? _) = true |- _ => rewrite Z.gtb_ltb in H
         | H : (_ >? _) = false |- _ => rewrite Z.gtb_ltb in H
         end.

Lemma py_max_spec (a b : Q) :
  (a <= py_max a b)%Q /\ (b <= py_max a b)%Q /\
  (py_max a b = a \/ py_max a b = b).
Proof.
  unfold py_max. destruct (Qlt_bool a b) eqn:L.
  - apply Qlt_bool_iff in L. repeat split; [now apply Qlt_le_weak | apply Qle_refl | now right].
  - apply Qlt_bool_false_iff in L. repeat split; [apply Qle_refl | exact L | now left].
Qed.

(** C1. Retry policy: when the first segmentation pass returns a count
    [c] with [0 <= c < speech_segment_count], exactly one second pass is
    made, with threshold [max(speech_score_threshold - 0.2, 0.4)] and
    duration [max(speech_segment_duration - 2, 3)]; when
    [c >= speech_segment_count] or [c < 0] there is no second pass; and
    whatever the passes return there are never more than two. The
    threshold of the second pass is a maximum of its two arguments: it is
    one of them and not below either. *)
Theorem infer_language_retry_policy
  (E : Z) (W : Type) (h : Handler W) (w : W) (args : Args)
  (audio_file : string) (ret : Z) (smp : Samples) (c : Z) :
  let r := run h (infer_language E args audio_file) w in
  let first_pass :=
    (smp, speech_score_threshold args, speech_segment_duration args) in
  let second_pass := (smp, retry_threshold args, retry_duration args) in
  hd_error (trace r) = Some (EvLoad audio_file ret smp) ->
  hd_error (find_statuses (trace r)) = Some c ->
  (0 <= c < speech_segment_count args ->
     find_requests (trace r) = [first_pass; second_pass]) /\
  (c >= speech_segment_count args \/ c < 0 ->
     find_requests (trace r) = [first_pass]) /\
  (List.length (find_requests (trace r)) <= 2)%nat /\
  retry_threshold args =
    py_max (speech_score_threshold args - (2 # 10))%Q (4 # 10) /\
  retry_duration args = Z.max (speech_segment_duration args - 2) 3 /\
  (speech_score_threshold args - (2 # 10) <= retry_threshold args)%Q /\
  (4 # 10 <= retry_threshold args)%Q /\
  (retry_threshold args = (speech_score_threshold args - (2 # 10))%Q \/
   retry_threshold args = 4 # 10).
Proof.
  cbv zeta.
  destruct (py_max_spec (speech_score_threshold args - (2 # 10)) (4 # 10))
    as [Ha [Hb Hc]].
  fold (retry_threshold args) in Ha, Hb, Hc.
  run_cases h.
  all: try discriminate.
  all: intros [= <- <-] [= <-]; tests_to_Z.
  all: repeat split; try reflexivity; try assumption;
    cbn [List.length]; try lia.
  all: intros; exfalso; lia.
Qed.

Lemma infer_language_retry_policy_witness :
  find_requests
    (trace (run scripted (infer_language (-1) floor_args "a.mp3") world_retry))
  = [([1; 2; 3], 5 # 10, 4); ([1; 2; 3], 4 # 10, 3)].
Proof.
  refine (proj1 (infer_language_retry_policy (-1) Script scripted world_retry
                   floor_args "a.mp3" 0 [1; 2; 3] 2 eq_refl eq_refl) _).
  cbn. lia.
Defined.

(** C7. Failure short-circuit: when the last segmentation pass (the second
    one if there was a retry) returns a negative status, [infer_language]
    returns that status with [None] and the classifier is never called. *)
Theorem failure_short_circuit
  (E : Z) (W : Type) (h : Handler W) (w : W) (args : Args)
  (audio_file : string) (ret : Z) :
  let r := run h (infer_language E args audio_file) w in
  last_opt (find_statuses (trace r)) = Some ret ->
  ret < 0 ->
  outcome r = Returned (ret, None) /\ infer_requests (trace r) = [].
Proof.
  cbv zeta. run_cases h.
  all: try discriminate.
  all: intros [= <-] Hneg; try (split; reflexivity).
  all: tests_to_Z; exfalso; lia.
Qed.

Lemma failure_short_circuit_witness :
  outcome (run scripted (infer_language (-1) default_args "a.mp3")
               world_retry_fails)
  = Returned (-4, None) /\
  infer_requests
    (trace (run scripted (infer_language (-1) default_args "a.mp3")
                world_retry_fails)) = [].
Proof.
  refine (failure_short_circuit (-1) Script scripted world_retry_fails
                                default_args "a.mp3" (-4) eq_refl _).
  lia.
Defined.

(** C9. Load failure is fatal: when [load_audio_samples] returns a negative
    status the process exits with code 1; the only calls made are the load
    and the print of the failure, so nothing is segmented, classified or
    aggregated, and no status is returned to the caller. *)
Theorem load_failure_exits
  (E : Z) (W : Type) (h : Handler W) (w : W) (args : Args)
  (audio_file : string) (ret : Z) (smp : Samples) :
  let r := run h (infer_language E args audio_file) w in
  hd_error (trace r) = Some (EvLoad audio_file ret smp) ->
  ret < 0 ->
  outcome r = Exited 1 /\
  trace r = [EvLoad audio_file ret smp; EvPrint (MsgLoadFailed ret)].
Proof.
  cbv zeta. run_cases h.
  all: intros [= <- <-] Hneg; try (split; reflexivity).
  all: tests_to_Z; exfalso; lia.
Qed.

Lemma load_failure_exits_witness :
  outcome (run scripted (infer_language (-1) default_args "a.mp3")
               world_load_fails)
  = Exited 1 /\
  trace (run scripted (infer_language (-1) default_args "a.mp3")
             world_load_fails)
  = [EvLoad "a.mp3" (-3) []; EvPrint (MsgLoadFailed (-3))].
Proof.
  refine (load_failure_exits (-1) Script scripted world_load_fails
                             default_args "a.mp3" (-3) [] eq_refl _).
  lia.
Defined.

(** C10. The retry replaces the first pass: when the first pass finds [c]
    segments with [0 <= c < speech_segment_count] and the second pass
    returns a negative status, [infer_language] returns that negative
    status with [None]; the classifier is never called, so the segments of
    the first pass are dropped. *)
Theorem retry_failure_replaces_first_pass
  (E : Z) (W : Type) (h : Handler W) (w : W) (args : Args)
  (audio_file : string) (c ret : Z) :
  let r := run h (infer_language E args audio_file) w in
  find_statuses (trace r) = [c; ret] ->
  0 <= c < speech_segment_count args ->
  ret < 0 ->
  outcome r = Returned (ret, None) /\ infer_requests (trace r) = [].
Proof.
  cbv zeta. run_cases h.
  all: try discriminate.
  all: intros [= <- <-] Hc Hneg; try (split; reflexivity).
  all: tests_to_Z; exfalso; lia.
Qed.

Lemma retry_failure_replaces_first_pass_witness :
  outcome (run scripted (infer_language (-1) default_args "a.mp3")
               world_retry_fails)
  = Returned (-4, None) /\
  infer_requests
    (trace (run scripted (infer_language (-1) default_args "a.mp3")
                world_retry_fails)) = [].
Proof.
  refine (retry_failure_replaces_first_pass
            (-1) Script scripted world_retry_fails default_args "a.mp3"
            2 (-4) eq_refl _ _);
    cbn; lia.
Defined.

(** ** The returned status *)

Lemma first_seen_length (l seen : list string) :
  (List.length (first_seen seen l) <= List.length l)%nat.
Proof.
  revert seen. induction l as [|x r IH]; intros seen; cbn [first_seen List.length].
  - lia.
  - destruct (existsb (String.eqb x) seen); cbn [List.length].
    + specialize (IH seen). lia.
    + specialize (IH (seen ++ [x])). lia.
Qed.

Lemma agg_loop_valid_count (predictions : Predictions) :
  valid_count (agg_loop predictions) =
  Z.of_nat (List.length (valid_guesses predictions)).
Proof.
  rewrite agg_loop_flat, agg_valid_count. cbn [agg_init valid_count].
  unfold valid_guesses. lia.
Qed.

Lemma aggregate_status
  (E : Z) (predictions : Predictions) (ret : Z) (result : LanguageList) :
  aggregate E predictions = (ret, Some result) ->
  ret = Z.of_nat (List.length (valid_guesses predictions)) /\
  List.length result =
    List.length (first_seen [] (map fst (valid_guesses predictions))) /\
  Z.of_nat (List.length result) <= ret.
Proof.
  intros H.
  assert (Hs : snd (aggregate E predictions) = Some result) by now rewrite H.
  destruct (aggregate_some E _ _ Hs) as [_ Hagg].
  rewrite Hagg in H. injection H as <- <-.
  assert (L : List.length
                (sorted_desc (normalize (total_score (agg_loop predictions))
                                        (language_score_map (agg_loop predictions)))) =
              List.length (first_seen [] (map fst (valid_guesses predictions)))).
  { rewrite (Permutation_length (sorted_desc_perm _)).
    rewrite <- agg_loop_keys, <- normalize_keys with (total := total_score (agg_loop predictions)).
    now rewrite length_map. }
  split; [apply agg_loop_valid_count|]. split; [exact L|].
  rewrite L, agg_loop_valid_count.
  pose proof (first_seen_length (map fst (valid_guesses predictions)) []) as B.
  rewrite length_map in B. apply inj_le. exact B.
Qed.

(** C6. On a successful aggregation the status that [infer_language]
    returns is [valid_count], the number of pairs of the classifier's batch
    that passed the 0.4 filter; the length of the result is the number of
    distinct languages among those pairs, which may be smaller. *)
Theorem status_is_valid_count
  (E : Z) (W : Type) (h : Handler W) (w : W) (args : Args)
  (audio_file : string) (ret : Z) (result : LanguageList) :
  let r := run h (infer_language E args audio_file) w in
  outcome r = Returned (ret, Some result) ->
  exists batch predictions,
    In (EvInfer batch predictions) (trace r) /\
    ret = Z.of_nat (List.length (valid_guesses predictions)) /\
    List.length result =
      List.length (first_seen [] (map fst (valid_guesses predictions))) /\
    Z.of_nat (List.length result) <= ret.
Proof.
  cbv zeta. run_cases h.
  all: try discriminate.
  all: intros [= Hagg];
    match goal with
    | |- context [EvInfer ?b ?p] =>
        exists b, p; split;
        [ cbn [In]; tauto | exact (aggregate_status E p ret result Hagg) ]
    end.
Qed.

Lemma status_is_valid_count_witness :
  exists batch predictions,
    In (EvInfer batch predictions)
       (trace (run scripted (infer_language (-1) default_args "a.mp3")
                   world_retry)) /\
    2 = Z.of_nat (List.length (valid_guesses predictions)) /\
    List.length [("eng"%string,
                  ((0 + (8 # 10) + (6 # 10)) * 100 / (0 + (8 # 10) + (6 # 10)))%Q)] =
      List.length (first_seen [] (map fst (valid_guesses predictions))) /\
    Z.of_nat (List.length [("eng"%string,
                  ((0 + (8 # 10) + (6 # 10)) * 100 / (0 + (8 # 10) + (6 # 10)))%Q)]) <= 2.
Proof.
  exact (status_is_valid_count (-1) Script scripted world_retry default_args
                               "a.mp3" 2 _ eq_refl).
Defined.

(** ** The scenarios of the specification *)

(** "fra" is discarded, two pairs are valid, one language is reported. *)
Example scenario_discard :
  exists pct,
    aggregate (-1) two_pass_predictions = (2, Some [("eng"%string, pct)]).
Proof. eexists. reflexivity. Qed.

(** Two languages in one segment: "eng" (0.8) stands before "fra" (0.6). *)
Example scenario_two_languages :
  exists p1 p2,
    aggregate (-1) [("s1", [("eng", 8 # 10); ("fra", 6 # 10)])]%string
    = (2, Some [("eng"%string, p1); ("fra"%string, p2)]).
Proof. do 2 eexists. reflexivity. Qed.

(** An empty batch yields the NO_VALID_LANGUAGE status. *)
Example scenario_empty_batch (E : Z) : aggregate E [] = (E, None).
Proof. reflexivity. Qed.


(** * Further properties of the orchestrator *)

Ltac read_trace :=
  cbn [find_answers load_requests load_statuses dump_requests prints
       find_requests find_statuses infer_requests hd_error last_opt
       List.length forallb is_status_msg andb].

(** X1. The audio source is loaded exactly once, before any other call,
    and the classifier is called at most once. *)
Theorem load_once_classify_at_most_once
  (E : Z) (W : Type) (h : Handler W) (w : W) (args : Args) (audio_file : string) :
  let r := run h (infer_language E args audio_file) w in
  let loaded := fst (h (LoadAudioSamples audio_file) w) in
  hd_error (trace r) = Some (EvLoad audio_file (fst loaded) (snd loaded)) /\
  load_requests (trace r) = [audio_file] /\
  (List.length (infer_requests (trace r)) <= 1)%nat.
Proof.
  cbv zeta. run_cases h; read_trace.
  all: repeat split; try reflexivity; lia.
Qed.

(** X2. When the last segmentation pass answers a status [ret >= 0] with a
    speech list, the classifier is called exactly once, on the samples of
    that list in order: after a retry the segments of the first pass are
    gone even if the second pass found fewer, and a status of 0 still
    sends the (possibly empty) list to the classifier. *)
Theorem classifier_batch_is_last_pass
  (E : Z) (W : Type) (h : Handler W) (w : W) (args : Args)
  (audio_file : string) (ret : Z) (speech_list : list SpeechObj) :
  let r := run h (infer_language E args audio_file) w in
  last_opt (find_answers (trace r)) = Some (ret, speech_list) ->
  0 <= ret ->
  infer_requests (trace r) = [map samples speech_list].
Proof.
  cbv zeta. run_cases h; read_trace.
  all: try discriminate.
  all: intros [= <- <-] Hret; try reflexivity.
  all: tests_to_Z; exfalso; lia.
Qed.

Lemma classifier_batch_is_last_pass_witness :
  infer_requests
    (trace (run scripted (infer_language (-1) default_args "a.mp3")
                world_retry_loses)) = [[]].
Proof.
  refine (classifier_batch_is_last_pass (-1) Script scripted world_retry_loses
            default_args "a.mp3" 0 [] eq_refl _).
  lia.
Defined.

(** X3. The debug dump is made exactly when [debug] is set and the last
    segmentation pass answered a status [> 0]; it is made once, into
    [output_path], with the speech list of that last pass. *)
Theorem debug_dump_condition
  (E : Z) (W : Type) (h : Handler W) (w : W) (args : Args)
  (audio_file : string) (ret : Z) (speech_list : list SpeechObj) :
  let r := run h (infer_language E args audio_file) w in
  last_opt (find_answers (trace r)) = Some (ret, speech_list) ->
  dump_requests (trace r) =
    if debug args && (0 <? ret) then [(output_path args, speech_list)] else [].
Proof.
  cbv zeta. run_cases h; read_trace.
  all: try discriminate.
  all: intros [= <- <-].
  all: repeat match goal with
         | H : debug _ = _ |- _ => rewrite H; clear H
         end.
  all: repeat match goal with
         | H : context [_ >? 0] |- _ => rewrite Z.gtb_ltb in H
         end.
  all: cbn [andb] in *.
  all: repeat match goal with
         | H : ?c = _ |- context [if ?c then _ else _] => rewrite H
         end.
  all: reflexivity.
Qed.

Lemma debug_dump_condition_witness :
  dump_requests
    (trace (run scripted (infer_language (-1) debug_args "a.mp3") world_retry))
  = [("./temp"%string, [seg 4; seg 5; seg 6])].
Proof.
  exact (debug_dump_condition (-1) Script scripted world_retry debug_args
           "a.mp3" 3 [seg 4; seg 5; seg 6] eq_refl).
Defined.

(** X4. Without [debug] nothing is dumped and nothing but status codes is
    printed: at most two prints, none of them showing predictions, the
    score map or the result. *)
Theorem quiet_without_debug
  (E : Z) (W : Type) (h : Handler W) (w : W) (args : Args) (audio_file : string) :
  let r := run h (infer_language E args audio_file) w in
  debug args = false ->
  dump_requests (trace r) = [] /\
  forallb is_status_msg (prints (trace r)) = true /\
  (List.length (prints (trace r)) <= 2)%nat.
Proof.
  cbv zeta. run_cases h; read_trace.
  all: intros Hd; try discriminate.
  all: try (rewrite Hd in *; cbn [andb] in *; discriminate).
  all: repeat split; try reflexivity; lia.
Qed.

Lemma quiet_without_debug_witness :
  dump_requests
    (trace (run scripted (infer_language (-1) default_args "a.mp3") world_retry))
  = [] /\
  forallb is_status_msg
    (prints (trace (run scripted (infer_language (-1) default_args "a.mp3")
                        world_retry))) = true /\
  (List.length
     (prints (trace (run scripted (infer_language (-1) default_args "a.mp3")
                         world_retry))) <= 2)%nat.
Proof.
  exact (quiet_without_debug (-1) Script scripted world_retry default_args
           "a.mp3" eq_refl).
Defined.

(** ** What [infer_language] can return *)

Lemma aggregate_some_nonempty
  (E : Z) (predictions : Predictions) (result : LanguageList) :
  snd (aggregate E predictions) = Some result -> result <> [].
Proof.
  intros H Hnil. destruct (aggregate_some E _ _ H) as [Hv Hagg].
  rewrite Hagg in H. cbn [snd] in H. injection H as H. rewrite Hnil in H.
  apply (f_equal (@List.length _)) in H.
  rewrite (Permutation_length (sorted_desc_perm _)) in H.
  unfold normalize in H. rewrite length_map in H.
  apply Hv. apply agg_loop_empty_iff.
  destruct (language_score_map (agg_loop predictions)); [reflexivity | discriminate H].
Qed.

Lemma aggregate_shapes (E : Z) (predictions : Predictions) :
  aggregate E predictions = (E, None) \/
  exists ret result,
    aggregate E predictions = (ret, Some result) /\
    1 <= ret /\ result <> [] /\ Z.of_nat (List.length result) <= ret.
Proof.
  destruct (snd (aggregate E predictions)) as [result|] eqn:S.
  - right. destruct (aggregate E predictions) as [ret res] eqn:A.
    cbn [snd] in S. subst res. exists ret, result.
    assert (S : snd (aggregate E predictions) = Some result) by now rewrite A.
    pose proof (aggregate_some_nonempty E _ _ S) as Hne.
    destruct (aggregate_status E _ _ _ A) as [_ [_ Hlen]].
    repeat split; auto.
    destruct result; [congruence|]. cbn [List.length] in Hlen. lia.
  - left. apply aggregate_none. now apply (aggregate_none_iff E).
Qed.

(** X5. Whatever the outside world answers, a run of [infer_language] ends
    in one of three ways: the process exits with code 1; or it returns
    [None] with a status that is either a negative segmentation status or
    ERROR_CODE_NO_VALID_LANGUAGE; or it returns a non-empty list with a
    status of at least 1 that is not below the length of the list. *)
Theorem outcome_shapes
  (E : Z) (W : Type) (h : Handler W) (w : W) (args : Args) (audio_file : string) :
  let r := run h (infer_language E args audio_file) w in
  outcome r = Exited 1 \/
  (exists ret, outcome r = Returned (ret, None) /\ (ret < 0 \/ ret = E)) \/
  (exists ret result,
      outcome r = Returned (ret, Some result) /\
      1 <= ret /\ result <> [] /\ Z.of_nat (List.length result) <= ret).
Proof.
  cbv zeta. run_cases h.
  all: try (left; reflexivity).
  all: try (right; left; eexists; split; [reflexivity|];
            left; tests_to_Z; assumption).
  all: match goal with
       | |- context [aggregate ?e ?p] =>
           destruct (aggregate_shapes e p) as [-> | [ret [result [-> Hr]]]]
       end.
  all: try (right; left; eexists; split; [reflexivity | now right]).
  all: right; right; do 2 eexists; split; [reflexivity | eassumption].
Qed.

(** X6. The process exits exactly when loading the audio returns a negative
    status, and the exit code is then 1: no other path of
    [infer_language] leaves the process. *)
Theorem exits_iff_load_fails
  (E : Z) (W : Type) (h : Handler W) (w : W) (args : Args)
  (audio_file : string) (code : Z) :
  let r := run h (infer_language E args audio_file) w in
  outcome r = Exited code <->
  code = 1 /\ fst (fst (h (LoadAudioSamples audio_file) w)) < 0.
Proof.
  cbv zeta. run_cases h.
  all: cbn [fst]; tests_to_Z.
  all: split; [intros [= <-] | intros [-> Hneg]];
    try (split; [reflexivity | assumption]); try reflexivity; try lia.
Qed.

(** X7. When ERROR_CODE_NO_VALID_LANGUAGE is negative, the returned status
    tells success from failure as the docstring says: the status is
    positive exactly when a language list is returned and negative exactly
    when [None] is returned; a status of 0 is never returned. *)
Theorem status_positive_iff_result
  (E : Z) (W : Type) (h : Handler W) (w : W) (args : Args)
  (audio_file : string) (ret : Z) (language_list : option LanguageList) :
  let r := run h (infer_language E args audio_file) w in
  E < 0 ->
  outcome r = Returned (ret, language_list) ->
  (0 < ret <-> language_list <> None) /\
  (ret < 0 <-> language_list = None) /\
  ret <> 0.
Proof.
  cbv zeta. intros HE. run_cases h.
  all: try discriminate.
  all: try match goal with
       | |- context [aggregate ?e ?p] =>
           destruct (aggregate_shapes e p) as [-> | [ret' [result [-> [Hpos _]]]]]
       end.
  all: intros [= <- <-]; tests_to_Z.
  all: repeat split; intros; try lia; try congruence.
Qed.

Lemma status_positive_iff_result_witness :
  (0 < -4 <-> @None LanguageList <> None) /\
  (-4 < 0 <-> @None LanguageList = None) /\
  -4 <> 0.
Proof.
  refine (status_positive_iff_result (-1) Script scripted world_retry_fails
            default_args "a.mp3" (-4) None _ eq_refl).
  lia.
Defined.

(** X8. The parameters of the second pass have floors: its threshold is
    never below 0.4 and its duration never below 3. So the second pass is
    looser than the first only for a threshold of at least 0.4 and a
    duration of at least 3; below those the retry is stricter, and at
    exactly 0.4 and 3 it repeats the first request. *)
Theorem retry_parameters_floor (args : Args) :
  (4 # 10 <= retry_threshold args)%Q /\
  3 <= retry_duration args /\
  ((retry_threshold args <= speech_score_threshold args)%Q <->
   (4 # 10 <= speech_score_threshold args)%Q) /\
  (retry_duration args <= speech_segment_duration args <->
   3 <= speech_segment_duration args) /\
  ((retry_threshold args == speech_score_threshold args)%Q <->
   (speech_score_threshold args == 4 # 10)%Q) /\
  (retry_duration args = speech_segment_duration args <->
   speech_segment_duration args = 3).
Proof.
  unfold retry_threshold, retry_duration.
  destruct (py_max_spec (speech_score_threshold args - (2 # 10)) (4 # 10))
    as [Ha [Hb Hc]].
  split; [exact Hb|].
  split; [lia|].
  split; [|split; [lia|split; [|lia]]].
  - destruct Hc as [Hc | Hc]; rewrite Hc in *; split; intros; lra.
  - destruct Hc as [Hc | Hc]; rewrite Hc in *; split; intros; lra.
Qed.

(** * Further properties of the aggregation *)

(** ** Entries of the result *)

Lemma first_seen_in (x : string) (l seen : list string) :
  In x (first_seen seen l) <-> In x l /\ ~ In x seen.
Proof.
  revert seen. induction l as [|y r IH]; intros seen; cbn [first_seen In].
  - tauto.
  - destruct (existsb (String.eqb y) seen) eqn:Ex.
    + apply existsb_eqb_in in Ex. rewrite IH. split.
      * intros [H1 H2]. auto.
      * intros [[->|H1] H2]; [contradiction | auto].
    + assert (Hy : ~ In y seen).
      { intros Hin. apply existsb_eqb_in in Hin. congruence. }
      cbn [In]. rewrite IH, in_app_iff. cbn [In]. split.
      * intros [<-|[H1 H2]]; [auto | split; [auto | tauto]].
      * intros [[<-|H1] H2]; [auto|].
        destruct (String.eqb y x) eqn:Eyx.
        -- apply String.eqb_eq in Eyx. auto.
        -- apply String.eqb_neq in Eyx. right. tauto.
Qed.

Lemma agg_loop_key_iff (predictions : Predictions) (l : string) :
  In l (dict_keys (language_score_map (agg_loop predictions))) <->
  exists s, In (l, s) (all_guesses predictions) /\ (4 # 10 <= s)%Q.
Proof.
  rewrite agg_loop_keys, first_seen_in, in_map_iff. unfold valid_guesses.
  split.
  - intros [[[l' s] [Hl Hin]] _]. cbn [fst] in Hl. subst l'.
    apply filter_In in Hin. destruct Hin as [Hin K].
    exists s. split; [exact Hin|]. now apply kept_iff in K.
  - intros [s [Hin Hs]]. split; [|tauto].
    exists (l, s). split; [reflexivity|].
    apply filter_In. split; [exact Hin|]. now apply kept_iff.
Qed.

Lemma aggregate_languages
  (E : Z) (predictions : Predictions) (result : LanguageList) :
  snd (aggregate E predictions) = Some result ->
  Permutation (map fst result)
              (dict_keys (language_score_map (agg_loop predictions))).
Proof.
  intros H. destruct (aggregate_some E _ _ H) as [_ Hagg].
  rewrite Hagg in H. cbn [snd] in H. injection H as <-.
  apply perm_trans
    with (map fst (normalize (total_score (agg_loop predictions))
                             (language_score_map (agg_loop predictions)))).
  - apply Permutation_map, sorted_desc_perm.
  - rewrite normalize_keys. apply Permutation_refl.
Qed.

(** X10. The result lists exactly the languages that have at least one
    pair with score >= 0.4 somewhere in the batch, each of them once. *)
Theorem result_languages
  (E : Z) (predictions : Predictions) (result : LanguageList) :
  snd (aggregate E predictions) = Some result ->
  NoDup (map fst result) /\
  (forall language_str,
      In language_str (map fst result) <->
      exists score,
        In (language_str, score) (all_guesses predictions) /\
        (4 # 10 <= score)%Q).
Proof.
  intros H. pose proof (aggregate_languages E _ _ H) as P. split.
  - apply (Permutation_NoDup (Permutation_sym P)). apply agg_loop_nodup.
  - intros l. rewrite <- agg_loop_key_iff. split; intros Hin.
    + exact (Permutation_in _ P Hin).
    + exact (Permutation_in _ (Permutation_sym P) Hin).
Qed.

Lemma result_languages_witness :
  NoDup (map fst [("eng"%string,
                   ((0 + (8 # 10) + (6 # 10)) * 100 / (0 + (8 # 10) + (6 # 10)))%Q)]) /\
  (forall language_str,
      In language_str
         (map fst [("eng"%string,
                    ((0 + (8 # 10) + (6 # 10)) * 100 / (0 + (8 # 10) + (6 # 10)))%Q)]) <->
      exists score,
        In (language_str, score) (all_guesses two_pass_predictions) /\
        (4 # 10 <= score)%Q).
Proof.
  exact (result_languages (-1) two_pass_predictions _ eq_refl).
Defined.

Lemma agg_fold_filter (gs : list Guess) (st : AggState) :
  fold_left agg_pair gs st = fold_left agg_pair (filter kept gs) st.
Proof.
  revert st. induction gs as [|g gs IH]; intros st; cbn [fold_left filter].
  - reflexivity.
  - destruct (kept g) eqn:K; cbn [fold_left].
    + apply IH.
    + rewrite (agg_pair_dropped _ _ K). apply IH.
Qed.

(** X12. Only the valid pairs and their order matter: the segment keys,
    the grouping of pairs into segments and every pair below 0.4 can be
    dropped without changing what aggregation returns. *)
Theorem aggregate_valid_pairs_only
  (E : Z) (predictions : Predictions) (key : string) :
  aggregate E predictions = aggregate E [(key, valid_guesses predictions)].
Proof.
  assert (L : agg_loop predictions = agg_loop [(key, valid_guesses predictions)]).
  { rewrite !agg_loop_flat. unfold all_guesses. cbn [map snd List.concat].
    rewrite app_nil_r. unfold valid_guesses, all_guesses.
    apply agg_fold_filter. }
  unfold aggregate. now rewrite L.
Qed.

(** ** Order of the pairs *)

Lemma filter_perm {A : Type} (f : A -> bool) (l l' : list A) :
  Permutation l l' -> Permutation (filter f l) (filter f l').
Proof.
  induction 1 as [|x l l' _ IH|x y l|l l' l'' _ IH1 _ IH2]; cbn [filter].
  - apply perm_nil.
  - destruct (f x); [now apply perm_skip | exact IH].
  - destruct (f x), (f y); try apply Permutation_refl.
    apply perm_swap.
  - now apply perm_trans with (filter f l').
Qed.

Lemma aggregate_some_of_valid (E : Z) (predictions : Predictions) :
  valid_guesses predictions <> [] ->
  exists result, snd (aggregate E predictions) = Some result.
Proof.
  intros Hne. destruct (snd (aggregate E predictions)) as [result|] eqn:S.
  - now exists result.
  - apply aggregate_none_iff in S. contradiction.
Qed.

(** X13. Counting does not depend on the order of the pairs: two batches
    holding the same pairs in a different order (or grouped into different
    segments) give the same status, both fail or both succeed, and their
    results name the same languages, equally many. (The percentages and
    the order of the entries are left out: they depend on the order of the
    additions.) *)
Theorem aggregate_permutation_invariant
  (E : Z) (p1 p2 : Predictions) :
  Permutation (all_guesses p1) (all_guesses p2) ->
  fst (aggregate E p1) = fst (aggregate E p2) /\
  (snd (aggregate E p1) = None <-> snd (aggregate E p2) = None) /\
  (forall r1 r2,
      snd (aggregate E p1) = Some r1 ->
      snd (aggregate E p2) = Some r2 ->
      List.length r1 = List.length r2 /\
      forall language_str,
        In language_str (map fst r1) <-> In language_str (map fst r2)).
Proof.
  intros P.
  assert (V : Permutation (valid_guesses p1) (valid_guesses p2))
    by (apply filter_perm, P).
  assert (N : valid_guesses p1 = [] <-> valid_guesses p2 = []).
  { split; intros H; rewrite H in V.
    - now apply Permutation_nil in V.
    - apply Permutation_sym in V. now apply Permutation_nil in V. }
  split; [|split].
  - destruct (valid_guesses p1) as [|g gs] eqn:V1.
    + rewrite (aggregate_none E p1 V1).
      rewrite (aggregate_none E p2 (proj1 N eq_refl)). reflexivity.
    + assert (H1 : valid_guesses p1 <> []) by (rewrite V1; discriminate).
      assert (H2 : valid_guesses p2 <> []).
      { intros H. apply N in H. congruence. }
      destruct (aggregate_some_of_valid E p1 H1) as [r1 S1].
      destruct (aggregate_some_of_valid E p2 H2) as [r2 S2].
      destruct (aggregate_some E _ _ S1) as [_ ->].
      destruct (aggregate_some E _ _ S2) as [_ ->].
      cbn [fst]. rewrite !agg_loop_valid_count. rewrite V1.
      now rewrite (Permutation_length V).
  - rewrite !aggregate_none_iff. exact N.
  - intros r1 r2 S1 S2.
    pose proof (aggregate_languages E _ _ S1) as L1.
    pose proof (aggregate_languages E _ _ S2) as L2.
    assert (K : forall l,
               In l (dict_keys (language_score_map (agg_loop p1))) <->
               In l (dict_keys (language_score_map (agg_loop p2)))).
    { intros l. rewrite !agg_loop_key_iff.
      split; intros [sc [Hin Hfl]]; exists sc; split; try exact Hfl.
      - exact (Permutation_in _ P Hin).
      - exact (Permutation_in _ (Permutation_sym P) Hin). }
    assert (M : forall l, In l (map fst r1) <-> In l (map fst r2)).
    { intros l. split; intros Hin.
      - apply (Permutation_in _ (Permutation_sym L2)). apply K.
        exact (Permutation_in _ L1 Hin).
      - apply (Permutation_in _ (Permutation_sym L1)). apply K.
        exact (Permutation_in _ L2 Hin). }
    split; [|exact M].
    rewrite <- (length_map fst r1), <- (length_map fst r2).
    apply Permutation_length. apply NoDup_Permutation.
    + apply (Permutation_NoDup (Permutation_sym L1)), agg_loop_nodup.
    + apply (Permutation_NoDup (Permutation_sym L2)), agg_loop_nodup.
    + exact M.
Qed.

Lemma aggregate_permutation_invariant_witness :
  fst (aggregate (-1) [("s1", [("eng", 8 # 10); ("fra", 6 # 10)])]%string) =
  fst (aggregate (-1) [("a", [("fra", 6 # 10)]); ("b", [("eng", 8 # 10)])]%string).
Proof.
  refine (proj1 (aggregate_permutation_invariant (-1)
            [("s1", [("eng", 8 # 10); ("fra", 6 # 10)])]%string
            [("a", [("fra", 6 # 10)]); ("b", [("eng", 8 # 10)])]%string _)).
  apply perm_swap.
Defined.

(** * The debug dump and the report *)

(** ** Reading the operations *)

Lemma wav_writes_app (a b : list FileOp) :
  wav_writes (a ++ b) = wav_writes a ++ wav_writes b.
Proof.
  induction a as [|op a IH]; [reflexivity|].
  destruct op; simpl; rewrite ?IH; reflexivity.
Qed.

Lemma written_text_app (f : string) (a b : list FileOp) :
  written_text f (a ++ b) = written_text f a ++ written_text f b.
Proof.
  induction a as [|op a IH]; [reflexivity|].
  destruct op; simpl; try exact IH.
  destruct (String.eqb file_path f); simpl; now rewrite IH.
Qed.

Lemma made_dirs_app (a b : list FileOp) :
  made_dirs (a ++ b) = made_dirs a ++ made_dirs b.
Proof.
  induction a as [|op a IH]; [reflexivity|].
  destruct op; simpl; rewrite ?IH; reflexivity.
Qed.

Lemma written_text_writes_same (f : string) {A : Type} (g : A -> string) (l : list A) :
  written_text f (map (fun x => OpWrite f (g x)) l) = map g l.
Proof.
  induction l as [|x l IH]; [reflexivity|].
  cbn [map written_text]. rewrite String.eqb_refl. now rewrite IH.
Qed.

Lemma written_text_writes_other (f f' : string) {A : Type} (g : A -> string) (l : list A) :
  f' <> f -> written_text f (map (fun x => OpWrite f' (g x)) l) = [].
Proof.
  intros Hne. induction l as [|x l IH]; [reflexivity|].
  cbn [map written_text]. apply String.eqb_neq in Hne. now rewrite Hne.
Qed.

(** ** The loop over the speech list *)

Section DumpFacts.

Variable path_join : string -> string -> string.
Variable abspath : string -> string.
Variable dir_path : string.

Let wav_path (i : nat) : string := path_join dir_path (wav_name i).

Lemma dump_loop (speech_list : list SpeechObj) (st : DumpState) :
  let st' := fold_left (dump_step path_join abspath dir_path) speech_list st in
  let numbered := combine (seq (S (index st)) (List.length speech_list)) speech_list in
  index st' = (index st + List.length speech_list)%nat /\
  file_path_list st' =
    file_path_list st ++
    map (fun i => abspath (wav_path i))
        (seq (S (index st)) (List.length speech_list)) /\
  dump_ops st' =
    dump_ops st ++
    flat_map (fun p => [OpPrintObj (snd p);
                        OpWavWrite (wav_path (fst p)) 16000 (samples (snd p))])
             numbered.
Proof.
  revert st. induction speech_list as [|so r IH]; intros st; cbv zeta.
  - cbn. rewrite !app_nil_r. repeat split. lia.
  - cbn [fold_left List.length seq combine map flat_map].
    destruct (IH (dump_step path_join abspath dir_path st so)) as [I1 [I2 I3]].
    cbv zeta in I1, I2, I3. rewrite I1, I2, I3.
    cbn [dump_step index file_path_list dump_ops fst snd].
    repeat split.
    + lia.
    + now rewrite <- app_assoc.
    + now rewrite <- app_assoc.
Qed.

Lemma wav_writes_numbered (l : list (nat * SpeechObj)) :
  wav_writes
    (flat_map (fun p => [OpPrintObj (snd p);
                         OpWavWrite (wav_path (fst p)) 16000 (samples (snd p))]) l)
  = map (fun p => (wav_path (fst p), 16000, samples (snd p))) l.
Proof.
  induction l as [|p l IH]; [reflexivity|].
  simpl. f_equal. exact IH.
Qed.

Lemma written_text_numbered (f : string) (l : list (nat * SpeechObj)) :
  written_text f
    (flat_map (fun p => [OpPrintObj (snd p);
                         OpWavWrite (wav_path (fst p)) 16000 (samples (snd p))]) l)
  = [].
Proof.
  induction l as [|p l IH]; [reflexivity|].
  simpl. exact IH.
Qed.

Lemma made_dirs_numbered (l : list (nat * SpeechObj)) :
  made_dirs
    (flat_map (fun p => [OpPrintObj (snd p);
                         OpWavWrite (wav_path (fst p)) 16000 (samples (snd p))]) l)
  = [].
Proof.
  induction l as [|p l IH]; [reflexivity|].
  simpl. exact IH.
Qed.

Lemma made_dirs_writes (f : string) {A : Type} (g : A -> string) (l : list A) :
  made_dirs (map (fun x => OpWrite f (g x)) l) = [].
Proof. induction l as [|x l IH]; [reflexivity | exact IH]. Qed.

Lemma wav_writes_writes (f : string) {A : Type} (g : A -> string) (l : list A) :
  wav_writes (map (fun x => OpWrite f (g x)) l) = [].
Proof. induction l as [|x l IH]; [reflexivity | exact IH]. Qed.

Lemma debug_dump_unfold (dir_exists : bool) (speech_list : list SpeechObj) :
  debug_dump path_join abspath dir_exists dir_path speech_list =
  [OpPrintDir dir_path] ++
  (if dir_exists then [] else [OpMakeDirs dir_path]) ++
  flat_map (fun p => [OpPrintObj (snd p);
                      OpWavWrite (wav_path (fst p)) 16000 (samples (snd p))])
           (combine (seq 1 (List.length speech_list)) speech_list) ++
  [OpOpen (path_join dir_path "manifest.tsv");
   OpWrite (path_join dir_path "manifest.tsv") ("/" ++ nl)] ++
  map (fun i => OpWrite (path_join dir_path "manifest.tsv")
                        (abspath (wav_path i) ++ tab ++ "16000" ++ nl))
      (seq 1 (List.length speech_list)) ++
  [OpClose (path_join dir_path "manifest.tsv");
   OpOpen (path_join dir_path "manifest.lang")] ++
  map (fun _ : nat => OpWrite (path_join dir_path "manifest.lang")
                              ("eng" ++ tab ++ "1" ++ nl))
      (seq 1 (List.length speech_list)) ++
  [OpClose (path_join dir_path "manifest.lang")].
Proof.
  unfold debug_dump.
  match goal with
  | |- context [fold_left _ _ ?st0] =>
      destruct (dump_loop speech_list st0) as [_ [P O]]
  end.
  cbv zeta in P, O. rewrite O, P.
  cbn [index file_path_list dump_ops].
  cbn [app]. rewrite !map_map, <- !app_assoc. reflexivity.
Qed.

Lemma wav_writes_debug_dump (dir_exists : bool) (speech_list : list SpeechObj) :
  wav_writes (debug_dump path_join abspath dir_exists dir_path speech_list) =
  map (fun p => (path_join dir_path (wav_name (fst p)), 16000, samples (snd p)))
      (combine (seq 1 (List.length speech_list)) speech_list).
Proof.
  rewrite debug_dump_unfold.
  assert (W : wav_writes (if dir_exists then [] else [OpMakeDirs dir_path]) = [])
    by (destruct dir_exists; reflexivity).
  rewrite !wav_writes_app, W, wav_writes_numbered, !wav_writes_writes.
  cbn [wav_writes app]. now rewrite !app_nil_r.
Qed.

(** X14. The debug dump writes one wav file per segment, at 16000 Hz, in
    the order of the speech list: segment number [k] (counted from 1) goes
    to [index_k.wav] in the output directory; the directory is created
    exactly when it does not exist yet. *)
Theorem debug_dump_wav_files (dir_exists : bool) (speech_list : list SpeechObj) :
  let ops := debug_dump path_join abspath dir_exists dir_path speech_list in
  wav_writes ops =
    map (fun p => (path_join dir_path (wav_name (fst p)), 16000, samples (snd p)))
        (combine (seq 1 (List.length speech_list)) speech_list) /\
  List.length (wav_writes ops) = List.length speech_list /\
  made_dirs ops = if dir_exists then [] else [dir_path].
Proof.
  cbv zeta. rewrite wav_writes_debug_dump. split; [reflexivity|]. split.
  - rewrite length_map, length_combine, length_seq. apply Nat.min_id.
  - rewrite debug_dump_unfold, !made_dirs_app.
    rewrite made_dirs_numbered, !made_dirs_writes.
    cbn [made_dirs app]. rewrite !app_nil_r.
    destruct dir_exists; reflexivity.
Qed.

(** X15. The manifests of the debug dump: [manifest.tsv] gets the root
    line "/" followed by one line per segment, the absolute path of its wav
    file, a tab and 16000, in segment order; [manifest.lang] gets one line
    "eng<tab>1" per segment, whatever language the segment holds. *)
Theorem debug_dump_manifests (dir_exists : bool) (speech_list : list SpeechObj) :
  path_join dir_path "manifest.tsv" <> path_join dir_path "manifest.lang" ->
  let ops := debug_dump path_join abspath dir_exists dir_path speech_list in
  written_text (path_join dir_path "manifest.tsv") ops =
    ("/" ++ nl)%string ::
    map (fun i => (abspath (path_join dir_path (wav_name i))
                   ++ tab ++ "16000" ++ nl)%string)
        (seq 1 (List.length speech_list)) /\
  written_text (path_join dir_path "manifest.lang") ops =
    repeat ("eng" ++ tab ++ "1" ++ nl)%string (List.length speech_list).
Proof.
  intros Hne. cbv zeta. rewrite debug_dump_unfold.
  assert (Hd : forall f,
             written_text f (if dir_exists then [] else [OpMakeDirs dir_path]) = [])
    by (intros f; destruct dir_exists; reflexivity).
  assert (Hne' : path_join dir_path "manifest.lang" <> path_join dir_path "manifest.tsv")
    by congruence.
  rewrite !written_text_app, !Hd, !written_text_numbered.
  rewrite !written_text_writes_same.
  rewrite (written_text_writes_other _ _ _ _ Hne').
  rewrite (written_text_writes_other _ _ _ _ Hne).
  cbn [written_text]. rewrite !String.eqb_refl.
  apply String.eqb_neq in Hne. rewrite Hne.
  cbn [app]. rewrite !app_nil_r. split; [reflexivity|].
  generalize 1%nat. induction (List.length speech_list) as [|n IH]; intros s.
  - reflexivity.
  - cbn [seq map repeat]. now rewrite IH.
Qed.

End DumpFacts.

Lemma debug_dump_manifests_witness :
  let ops := debug_dump posix_join (fun p => p) false "./temp" [seg 7; seg 8] in
  written_text (posix_join "./temp" "manifest.tsv") ops =
    ("/" ++ nl)%string ::
    map (fun i => (posix_join "./temp" (wav_name i) ++ tab ++ "16000" ++ nl)%string)
        (seq 1 2) /\
  written_text (posix_join "./temp" "manifest.lang") ops =
    repeat ("eng" ++ tab ++ "1" ++ nl)%string 2.
Proof.
  refine (debug_dump_manifests posix_join (fun p => p) "./temp" false
                               [seg 7; seg 8] _).
  discriminate.
Defined.

(** ** Names of the wav files *)

Lemma string_length_append (s t : string) :
  String.length (s ++ t) = (String.length s + String.length t)%nat.
Proof. induction s as [|c s IH]; cbn; [reflexivity | now rewrite IH]. Qed.

Lemma string_append_inv_tail (s1 s2 t : string) :
  (s1 ++ t)%string = (s2 ++ t)%string -> s1 = s2.
Proof.
  revert s2. induction s1 as [|c s1 IH]; intros [|c2 s2] H; cbn in H.
  - reflexivity.
  - apply (f_equal String.length) in H. cbn in H.
    rewrite string_length_append in H. lia.
  - apply (f_equal String.length) in H. cbn in H.
    rewrite string_length_append in H. lia.
  - injection H as -> H. f_equal. now apply IH.
Qed.

Lemma to_uint_nonnil (n : nat) : Nat.to_uint n <> Decimal.Nil.
Proof.
  rewrite <- (DecimalNat.Unsigned.of_to n) at 1.
  rewrite DecimalNat.Unsigned.to_of. apply DecimalFacts.unorm_nonnil.
Qed.

Lemma str_nat_inj (i j : nat) : str_nat i = str_nat j -> i = j.
Proof.
  unfold str_nat. intros H.
  apply (f_equal DecimalString.NilZero.uint_of_string) in H.
  rewrite !DecimalString.NilZero.usu in H by apply to_uint_nonnil.
  injection H as H. now apply DecimalNat.Unsigned.to_uint_inj.
Qed.

Lemma wav_name_inj (i j : nat) : wav_name i = wav_name j -> i = j.
Proof.
  unfold wav_name. intros H. cbn in H.
  injection H as H. apply string_append_inv_tail in H.
  now apply str_nat_inj.
Qed.

Lemma map_fst_combine_seq {A : Type} (l : list A) (s : nat) :
  map fst (combine (seq s (List.length l)) l) = seq s (List.length l).
Proof.
  revert s. induction l as [|x l IH]; intros s; [reflexivity|].
  cbn [List.length seq combine map fst]. now rewrite IH.
Qed.

Lemma NoDup_map_injective {A B : Type} (f : A -> B) (l : list A) :
  (forall a b, f a = f b -> a = b) -> NoDup l -> NoDup (map f l).
Proof.
  intros Hinj. induction 1 as [|x l Hx _ IH]; cbn [map]; constructor.
  - intros Hin. apply in_map_iff in Hin. destruct Hin as [y [E Hy]].
    apply Hinj in E. now subst.
  - exact IH.
Qed.

Lemma string_append_inv_head (s a b : string) :
  (s ++ a)%string = (s ++ b)%string -> a = b.
Proof.
  induction s as [|c s IH]; cbn; intros H; [exact H|].
  injection H as H. now apply IH.
Qed.

(** [posixpath.join] keeps relative names apart, whatever the directory. *)
Lemma os_path_join_relative_inj (dir_path a b : string) :
  starts_with_slash a = false ->
  starts_with_slash b = false ->
  os_path_join dir_path a = os_path_join dir_path b ->
  a = b.
Proof.
  unfold os_path_join. intros -> ->.
  destruct (String.eqb dir_path "" || ends_with_slash dir_path); intros H.
  - now apply string_append_inv_head in H.
  - apply string_append_inv_head in H. cbn in H. now injection H.
Qed.

Lemma wav_name_relative (i : nat) : starts_with_slash (wav_name i) = false.
Proof. reflexivity. Qed.

(** X16. When [os.path.join] keeps different relative file names (names
    not starting with "/") apart in [dir_path], as [posixpath.join] does
    for every directory, relative or absolute, the wav files of one dump
    all have different paths, so no segment overwrites another. *)
Theorem debug_dump_wav_paths_distinct
  (path_join : string -> string -> string) (abspath : string -> string)
  (dir_exists : bool) (dir_path : string) (speech_list : list SpeechObj) :
  (forall a b,
      starts_with_slash a = false ->
      starts_with_slash b = false ->
      path_join dir_path a = path_join dir_path b -> a = b) ->
  NoDup (map (fun w => fst (fst w))
             (wav_writes (debug_dump path_join abspath dir_exists dir_path
                                     speech_list))).
Proof.
  intros Hinj.
  rewrite wav_writes_debug_dump.
  rewrite map_map. cbn [fst].
  rewrite <- (map_map fst (fun i => path_join dir_path (wav_name i))).
  rewrite map_fst_combine_seq.
  apply NoDup_map_injective; [|apply seq_NoDup].
  intros a b H.
  apply Hinj in H; try apply wav_name_relative.
  now apply wav_name_inj.
Qed.

Lemma debug_dump_wav_paths_distinct_witness :
  NoDup (map (fun w => fst (fst w))
             (wav_writes (debug_dump os_path_join (fun p => p) false "/tmp/out"
                                     [seg 7; seg 8]))).
Proof.
  refine (debug_dump_wav_paths_distinct os_path_join (fun p => p) false
                                        "/tmp/out" [seg 7; seg 8] _).
  intros a b Ha Hb H. unfold os_path_join in H. rewrite Ha, Hb in H.
  cbn in H. now injection H.
Defined.

(** ** The report of the script *)

Lemma returned_list_nonempty
  (E : Z) (W : Type) (h : Handler W) (w : W) (args : Args)
  (audio_file : string) (ret : Z) (l : LanguageList) :
  outcome (run h (infer_language E args audio_file) w) = Returned (ret, Some l) ->
  l <> [].
Proof.
  run_cases h.
  all: try discriminate.
  all: intros [= Hagg];
    match goal with
    | |- _ => apply (f_equal snd) in Hagg; cbn [snd] in Hagg;
              exact (aggregate_some_nonempty _ _ _ Hagg)
    end.
Qed.

(** X17. After [infer_language] returned [(ret, language_list)], in debug
    mode and when [predictions.txt] can be opened, the script writes the
    line "ret:<status>" and, exactly when a list was returned, one more
    line with its JSON text: the emptiness test of the script never holds
    a returned list back; the result is then printed. When [open] raises
    (as it does if [output_path] does not exist) nothing is written or
    printed and the script ends by the exception. Without debug nothing is
    written and the result is printed. *)
Theorem report_file
  (json_dumps : LanguageList -> string) (open_ok : bool)
  (E : Z) (W : Type) (h : Handler W) (w : W) (args : Args)
  (audio_file : string) (ret : Z) (language_list : option LanguageList) :
  let r := run h (infer_language E args audio_file) w in
  let file := (output_path args ++ "/predictions.txt")%string in
  outcome r = Returned (ret, language_list) ->
  main_report json_dumps open_ok args (outcome r) =
  if debug args
  then
    if open_ok
    then
      ([OpOpen file; OpWrite file ("ret:" ++ str_int ret ++ nl)] ++
       match language_list with
       | Some l => [OpWrite file (json_dumps l ++ nl)]
       | None => []
       end ++
       [OpClose file; OpPrintResult ret language_list],
       ScriptDone)
    else ([], ScriptRaised)
  else ([OpPrintResult ret language_list], ScriptDone).
Proof.
  cbv zeta. intros Hout. rewrite Hout. unfold main_report.
  destruct (debug args); [|reflexivity].
  destruct open_ok; [|reflexivity].
  destruct language_list as [l|]; [|reflexivity].
  pose proof (returned_list_nonempty E W h w args audio_file ret l Hout) as Hne.
  destruct l as [|e l]; [congruence|]. reflexivity.
Qed.

Lemma report_file_witness :
  exists l,
    main_report (fun _ => "[json]"%string) true debug_args
      (outcome (run scripted (infer_language (-1) debug_args "a.mp3") world_retry))
    = ([OpOpen "./temp/predictions.txt";
        OpWrite "./temp/predictions.txt" ("ret:" ++ str_int 2 ++ nl);
        OpWrite "./temp/predictions.txt" ("[json]" ++ nl);
        OpClose "./temp/predictions.txt";
        OpPrintResult 2 (Some l)],
       ScriptDone).
Proof.
  eexists.
  exact (report_file (fun _ => "[json]"%string) true (-1) Script scripted
                     world_retry debug_args "a.mp3" 2 _ eq_refl).
Defined.
